(** * snipsage: the retrying, logging, thread-per-item batch of [demo.py]

    The file has two halves.  The first embeds the program: the exception
    and effect monad in which [retry], [DataProcessor.process] and the
    per-item [task] are written, the singleton [Logger] over a small world
    (class registry, object heap, file system, standard output), and the
    thread machine that [DataProcessor.run] starts: one thread per value, a
    lock around every log record, [join] on every thread; it ends with the
    vocabulary of the statements.  The second half states and proves the
    properties of the specification. *)

From Stdlib Require Import QArith.
From stdpp Require Import base list strings pretty gmap numbers.

Open Scope Z_scope.


(** ** Python values the program handles *)

(** An instance of [Exception]: its class name and what [str(e)] gives. *)
Record exn := Exception { exc_type : string; exc_str : string }.

Definition ValueError (msg : string) : exn := Exception "ValueError" msg.

(** What a thread does to the outside: [Logger().log(msg)],
    [time.sleep(d)] and [results.append(v)].  A [None] in [Append] is
    Python's [None]. *)
Inductive event :=
| Log (msg : string)
| Sleep (d : Q)
| Append (v : option Z).

(** The values a list of events appends to [results], in order. *)
Definition appends_of (evs : list event) : list (option Z) :=
  omap (λ ev, match ev with Append v => Some v | _ => None end) evs.

(** The messages a list of events logs, in order. *)
Definition logs_of (evs : list event) : list string :=
  omap (λ ev, match ev with Log msg => Some msg | _ => None end) evs.

(** ** The monad of the sequential code

    A callable runs from a private state [St] (whatever it closes over),
    ends by returning or by raising, and has emitted a list of events on
    the way.  Events emitted before an exception stay emitted. *)

Inductive outcome (A : Type) :=
| Returned (a : A)
| Raised (e : exn).
Arguments Returned {A} a.
Arguments Raised {A} e.

Record ran (St A : Type) := Ran { out : outcome A; final : St; emitted : list event }.
Arguments Ran {St A} out final emitted.
Arguments out {St A} r.
Arguments final {St A} r.
Arguments emitted {St A} r.

Definition M (St A : Type) : Type := St → ran St A.

Section Monad.
Context {St : Type}.

Definition ret {A} (a : A) : M St A := λ s, Ran (Returned a) s [].

Definition raise {A} (e : exn) : M St A := λ s, Ran (Raised e) s [].

Definition bind {A B} (m : M St A) (k : A → M St B) : M St B := λ s,
  let r := m s in
  match out r with
  | Returned a => let r' := k a (final r) in
                  Ran (out r') (final r') (emitted r ++ emitted r')
  | Raised e => Ran (Raised e) (final r) (emitted r)
  end.

(** [try: m  except Exception as e: h e] *)
Definition try_except {A} (m : M St A) (h : exn → M St A) : M St A := λ s,
  let r := m s in
  match out r with
  | Returned a => r
  | Raised e => let r' := h e (final r) in
                Ran (out r') (final r') (emitted r ++ emitted r')
  end.

Definition emit (ev : event) : M St unit := λ s, Ran (Returned tt) s [ev].

(** [Logger().log(msg)] *)
Definition log (msg : string) : M St unit := emit (Log msg).
(** [time.sleep(d)] *)
Definition sleep (d : Q) : M St unit := emit (Sleep d).
(** [results.append(v)] *)
Definition append (v : option Z) : M St unit := emit (Append v).
End Monad.

#[export] Instance M_ret {St} : MRet (M St) := λ A, @ret St A.
#[export] Instance M_bind {St} : MBind (M St) := λ A B k m, @bind St A B m k.

(** ** [retry] *)

(** f"Attempt {attempt} failed: {str(e)}" *)
Definition attempt_message (attempt : Z) (e : exn) : string :=
  "Attempt " +:+ pretty attempt +:+ " failed: " +:+ exc_str e.

Section Retry.
Context {St A : Type}.
Variable retries : Z.
Variable delay : Q.

(** The body of [for attempt in range(1, retries + 1)], over the
    attempt numbers still to come.  Falling off the loop is the implicit
    [return None]. *)
Fixpoint attempts (call : M St A) (range : list Z) : M St (option A) :=
  match range with
  | [] => mret None
  | attempt :: rest =>
      try_except
        (a ← call; mret (Some a))
        (λ e, log (attempt_message attempt e);;
              if bool_decide (attempt = retries) then raise e
              else sleep delay;; attempts call rest)
  end.

(** [inner], called with [args], for [func] under [@retry(retries, delay)]. *)
Definition inner {Args} (func : Args → M St A) (args : Args) : M St (option A) :=
  attempts (func args) (seqZ 1 retries).
End Retry.

(** [retry(retries, delay)(func)]; the defaults are [retries=3, delay=1.0]. *)
Definition retry {St A Args} (retries : Z) (delay : Q) (func : Args → M St A)
  : Args → M St (option A) := inner retries delay func.

Definition default_retries : Z := 3.
Definition default_delay : Q := 1%Q.

(** ** The singleton [Logger], sequentially

    The world a single thread sees: the registry [SingletonMeta._instances]
    (class name to address), the heap of [Logger] objects, the files, what
    was printed, and what [time.ctime()] returns at the moment. *)

Record LoggerObj := LoggerObject { lock_held : bool; filepath : string }.

Record world := World {
  instances : gmap string nat;
  heap : list LoggerObj;
  files : gmap string string;
  stdout : list string;
  ctime : string
}.

(** A class under [SingletonMeta]: its name and its [__init__]. *)
Record pyclass := PyClass {
  cls_name : string;
  cls_init : option string → LoggerObj
}.

Definition print (line : string) (w : world) : world :=
  World (instances w) (heap w) (files w) (stdout w ++ [line]) (ctime w).

(** The line feed that ends a record. *)
Definition newline : Ascii.ascii := Ascii.ascii_of_nat 10.

(** The text of one record: [<timestamp>: <message>] and a line feed. *)
Definition record_line (timestamp message : string) : string :=
  timestamp +:+ ": " +:+ message +:+ String newline "".

Module SingletonMeta.

(** [cls(arg)] for a class whose metaclass is [SingletonMeta]: the
    arguments reach [__init__] only when the class has no instance yet. *)
Definition call (cls : pyclass) (arg : option string) (w : world) : nat * world :=
  let w' :=
    match instances w !! cls_name cls with
    | None =>
        let w1 := print ("Creating new instance for " +:+ cls_name cls) w in
        let obj := cls_init cls arg in
        World (<[cls_name cls := length (heap w1)]> (instances w1))
              (heap w1 ++ [obj]) (files w1) (stdout w1) (ctime w1)
    | Some _ => w
    end in
  (instances w' !!! cls_name cls, w').

End SingletonMeta.

Module Logger.

(** [__init__(self, filepath="app.log")]: a fresh, free lock and the path. *)
Definition init (filepath : option string) : LoggerObj :=
  LoggerObject false (default "app.log" filepath).

Definition cls : pyclass := PyClass "Logger" init.


(** [self.log(message)] in a single thread: take the lock, open the file
    for appending (creating it when absent), write one formatted record,
    close, release.  [None] when [self] is no object or its lock is
    already held (the call would block for ever). *)
Definition log (self : nat) (message : string) (w : world) : option world :=
  match heap w !! self with
  | None => None
  | Some obj =>
      if lock_held obj then None
      else
        let path := filepath obj in
        let old := default ""%string (files w !! path) in
        Some (World (instances w) (heap w)
                    (<[path := old +:+ record_line (ctime w) message]> (files w))
                    (stdout w) (ctime w))
  end.

End Logger.

(** ** Threads

    [DataProcessor.run] starts one thread per value and joins them all.
    Every [log] call of a thread goes through [Logger()]; the machine
    takes the logger as registered when the threads run, as it is after
    any construction call that has returned: all threads reach the one
    instance, so there is one lock and one log file.  (Several threads
    making the very first construction call at once are told apart, in
    [caller_step].)  A record is written character by character while the
    lock is held, which is the finest way the runtime may split the write.
    [results.append] is one step.  The scheduler and the clock are the
    environment: a schedule is a list of choices, and a choice that cannot
    move is skipped. *)

(** Where a thread stands inside [Logger.log]: outside, holding the lock
    with nothing formatted yet, or writing the rest of its line (stamped
    [ts]). *)
Inductive phase :=
| Idle
| Locked
| Writing (ts : string) (rest : string).

Record thread := Thread { todo : list event; ph : phase }.

Record state := State {
  unstarted : list (list event);        (* bodies of the threads still to start *)
  pool : list thread;                   (* [threads], in start order *)
  joined : nat;                         (* how many [t.join()] have returned *)
  lock : bool;                          (* [Logger()._lock] is held *)
  file : string;                        (* content of the log file *)
  results : list (option Z);            (* [results] *)
  clock : string;                       (* what [time.ctime()] returns now *)
  journal : list (nat * string * string) (* history: thread, timestamp, message
                                           of every completed [log] call *)
}.

Inductive choice :=
| Main                 (* the thread that called [run] *)
| Run (i : nat)        (* the [i]-th started thread *)
| Tick (ts : string).  (* the clock moves: [time.ctime()] now gives [ts] *)

Definition idle_done (t : thread) : bool :=
  match todo t, ph t with
  | [], Idle => true
  | _, _ => false
  end.

(** Field updates. *)
Definition set_unstarted (u : list (list event)) (st : state) : state :=
  State u (pool st) (joined st) (lock st) (file st) (results st) (clock st) (journal st).
Definition set_pool (p : list thread) (st : state) : state :=
  State (unstarted st) p (joined st) (lock st) (file st) (results st) (clock st) (journal st).
Definition set_joined (n : nat) (st : state) : state :=
  State (unstarted st) (pool st) n (lock st) (file st) (results st) (clock st) (journal st).
Definition set_lock (b : bool) (st : state) : state :=
  State (unstarted st) (pool st) (joined st) b (file st) (results st) (clock st) (journal st).
Definition set_file (f : string) (st : state) : state :=
  State (unstarted st) (pool st) (joined st) (lock st) f (results st) (clock st) (journal st).
Definition set_results (r : list (option Z)) (st : state) : state :=
  State (unstarted st) (pool st) (joined st) (lock st) (file st) r (clock st) (journal st).
Definition set_clock (ts : string) (st : state) : state :=
  State (unstarted st) (pool st) (joined st) (lock st) (file st) (results st) ts (journal st).
Definition set_journal (j : list (nat * string * string)) (st : state) : state :=
  State (unstarted st) (pool st) (joined st) (lock st) (file st) (results st) (clock st) j.
Definition set_thread (i : nat) (t : thread) (st : state) : state :=
  set_pool (<[i := t]> (pool st)) st.

(** One step of the thread that called [run]: [t.start()] for the next
    value, or, once all are started, return from the next [t.join()]
    when that thread has ended. *)
Definition main_step (st : state) : option state :=
  match unstarted st with
  | body :: rest =>
      Some (set_unstarted rest (set_pool (pool st ++ [Thread body Idle]) st))
  | [] =>
      match pool st !! joined st with
      | Some t => if idle_done t then Some (set_joined (S (joined st)) st) else None
      | None => None
      end
  end.

(** One step of the started thread [i].  Inside [Logger.log]: acquiring
    the lock needs it free; with the lock held the thread opens the file
    and formats the record with the clock's reading, writes it one
    character at a time, then closes the file and releases the lock, and
    the call returns. *)
Definition thread_step (i : nat) (st : state) : option state :=
  match pool st !! i with
  | None => None
  | Some t =>
      match ph t, todo t with
      | Idle, [] => None
      | Idle, Sleep _ :: rest => Some (set_thread i (Thread rest Idle) st)
      | Idle, Append v :: rest =>
          Some (set_results (results st ++ [v]) (set_thread i (Thread rest Idle) st))
      | Idle, Log msg :: rest =>
          if lock st then None
          else Some (set_lock true (set_thread i (Thread (Log msg :: rest) Locked) st))
      | Locked, Log msg :: rest =>
          Some (set_thread i
                  (Thread (Log msg :: rest)
                          (Writing (clock st) (record_line (clock st) msg)))
                  st)
      | Writing ts (String c r), Log msg :: rest =>
          Some (set_file (file st +:+ String c "")
                  (set_thread i (Thread (Log msg :: rest) (Writing ts r)) st))
      | Writing ts EmptyString, Log msg :: rest =>
          Some (set_journal (journal st ++ [(i, ts, msg)])
                  (set_lock false (set_thread i (Thread rest Idle) st)))
      | _, _ => None
      end
  end.

Definition step (c : choice) (st : state) : option state :=
  match c with
  | Main => main_step st
  | Run i => thread_step i st
  | Tick ts => Some (set_clock ts st)
  end.

(** A schedule, choice after choice; a choice that cannot move is skipped. *)
Definition exec (sched : list choice) (st : state) : state :=
  foldl (λ st c, default st (step c st)) st sched.

(** The machine before anything is started: the log file holds [file0],
    the clock shows [clock0]. *)
Definition init (bodies : list (list event)) (file0 clock0 : string) : state :=
  State bodies [] 0 false file0 [] clock0 [].

(** Every thread is started and joined: the caller has its answer. *)
Definition returned (st : state) : bool :=
  bool_decide (unstarted st = [] ∧ joined st = length (pool st)).

(** The moves of the machine, case by case; [step] computes them. *)
Inductive moves (st : state) : choice → state → Prop :=
| mv_start body rest :
    unstarted st = body :: rest →
    moves st Main (set_unstarted rest (set_pool (pool st ++ [Thread body Idle]) st))
| mv_join t :
    unstarted st = [] → pool st !! joined st = Some t → idle_done t = true →
    moves st Main (set_joined (S (joined st)) st)
| mv_tick ts :
    moves st (Tick ts) (set_clock ts st)
| mv_sleep i d rest :
    pool st !! i = Some (Thread (Sleep d :: rest) Idle) →
    moves st (Run i) (set_thread i (Thread rest Idle) st)
| mv_append i v rest :
    pool st !! i = Some (Thread (Append v :: rest) Idle) →
    moves st (Run i)
          (set_results (results st ++ [v]) (set_thread i (Thread rest Idle) st))
| mv_acquire i msg rest :
    pool st !! i = Some (Thread (Log msg :: rest) Idle) → lock st = false →
    moves st (Run i)
          (set_lock true (set_thread i (Thread (Log msg :: rest) Locked) st))
| mv_stamp i msg rest :
    pool st !! i = Some (Thread (Log msg :: rest) Locked) →
    moves st (Run i)
          (set_thread i
             (Thread (Log msg :: rest) (Writing (clock st) (record_line (clock st) msg)))
             st)
| mv_write i msg rest ts c r :
    pool st !! i = Some (Thread (Log msg :: rest) (Writing ts (String c r))) →
    moves st (Run i)
          (set_file (file st +:+ String c "")
             (set_thread i (Thread (Log msg :: rest) (Writing ts r)) st))
| mv_release i msg rest ts :
    pool st !! i = Some (Thread (Log msg :: rest) (Writing ts EmptyString)) →
    moves st (Run i)
          (set_journal (journal st ++ [(i, ts, msg)])
             (set_lock false (set_thread i (Thread rest Idle) st))).

(** ** [DataProcessor] *)

Module DataProcessor.

(** The undecorated body of [process]. *)
Definition process_body (data : Z) : M unit Z :=
  if bool_decide (data `mod` 13 = 0) then raise (ValueError "Unlucky number!")
  else sleep (1 # 100)%Q;;
       log ("Processed: " +:+ pretty data);;
       mret (data ^ 2).

(** [@retry(retries=2) def process(self, data)] *)
Definition process : Z → M unit (option Z) :=
  retry 2 default_delay process_body.

(** The closure [task] of [run]. *)
Definition task (val : Z) : M unit unit :=
  try_except
    (res ← process val; append res)
    (λ e, log ("Failed processing " +:+ pretty val +:+ ": " +:+ exc_str e)).

(** What the thread started for [val] does, in order: [task] reads
    nothing that another thread writes, so its calls are those of a run
    on its own. *)
Definition thread_body (val : Z) : list event := emitted (task val tt).

(** The machine of [run(values)] after the schedule [sched]: one thread
    per value, in the order of [values]. *)
Definition machine (values : list Z) (sched : list choice) (file0 clock0 : string)
  : state :=
  exec sched (init (thread_body <$> values) file0 clock0).

(** [run(values)] under the schedule [sched]: the list it returns, or
    [None] when the schedule ends before [run] returns. *)
Definition run (values : list Z) (sched : list choice) (file0 clock0 : string)
  : option (list (option Z)) :=
  let st := machine values sched file0 clock0 in
  if returned st then Some (results st) else None.

End DataProcessor.

(** A schedule in which the threads run one after the other: start all
    [n], give each [k] steps in turn, join all [n]. *)
Definition seq_sched (n k : nat) : list choice :=
  replicate n Main ++ flat_map (λ i, replicate k (Run i)) (seq 0 n) ++ replicate n Main.

(** ** Vocabulary of the statements *)

Section Calls.
Context {St A : Type}.



End Calls.



(** A callable that counts its invocations, raises on the first [k] and
    returns [v] afterwards. *)
Definition flaky (k : nat) (v : Z) : M nat Z := λ n,
  if bool_decide (n < k)%nat
  then Ran (Raised (ValueError ("failure " +:+ pretty n))) (S n) []
  else Ran (Returned v) (S n) [].





(** The text made of the given pieces, one after the other. *)
Definition text (pieces : list string) : string :=
  foldr String.append ""%string pieces.




(** ** The first construction call, made by several threads at once

    [SingletonMeta.__call__] takes no lock.  A thread inside it stands
    before the membership test, before the construction and the store
    (having found no instance; the print, the construction and the store
    are taken as one step, splitting them only adds interleavings), before
    the final lookup, or has returned an address. *)
Inductive caller :=
| AtTest
| AtStore
| AtReturn
| Got (a : nat).

(** The registered instance, the number of objects built so far (the next
    address), and the threads inside the call. *)
Record registry := Registry {
  registered : option nat;
  built : nat;
  callers : list caller
}.

Definition caller_step (i : nat) (r : registry) : registry :=
  match callers r !! i with
  | Some AtTest =>
      Registry (registered r) (built r)
               (<[i := match registered r with Some _ => AtReturn | None => AtStore end]>
                  (callers r))
  | Some AtStore =>
      Registry (Some (built r)) (S (built r)) (<[i := AtReturn]> (callers r))
  | Some AtReturn =>
      match registered r with
      | Some a => Registry (registered r) (built r) (<[i := Got a]> (callers r))
      | None => r
      end
  | _ => r
  end.

Definition race (sched : list nat) (r : registry) : registry :=
  foldl (λ r i, caller_step i r) r sched.


(** *** What the invariants of the thread machine speak of *)

(** The messages of the completed [log] calls of thread [i], in order. *)
Definition said (i : nat) (j : list (nat * string * string)) : list string :=
  omap (λ '(k, _, msg), if bool_decide (k = i) then Some msg else None) j.

(** The records of the completed [log] calls, in order of completion. *)
Definition journal_lines (j : list (nat * string * string)) : list string :=
  (λ '(_, ts, msg), record_line ts msg) <$> j.

(** What thread number [i] has still to do, started or not. *)
Definition remaining (i : nat) (st : state) : list event :=
  match pool st !! i with
  | Some t => todo t
  | None => default [] (unstarted st !! (i - length (pool st))%nat)
  end.

(** Values still to be appended by the started threads. *)
Definition pending (st : state) : list (option Z) :=
  flat_map (λ t, appends_of (todo t)) (pool st).

(** Nothing appended is lost or invented. *)
Definition results_ok (bodies : list (list event)) (st : state) : Prop :=
  results st ++ pending st ++ flat_map appends_of (unstarted st)
  ≡ₚ flat_map appends_of bodies.

(** The threads are those of [bodies], in order, and each has completed
    the [log] calls its body makes before what it has still to do. *)
Definition threads_ok (bodies : list (list event)) (st : state) : Prop :=
  (length (pool st) + length (unstarted st) = length bodies)%nat
  ∧ (∀ k ts msg, (k, ts, msg) ∈ journal st → (k < length (pool st))%nat)
  ∧ ∀ i, said i (journal st) ++ logs_of (remaining i st)
         = logs_of (default [] (bodies !! i)).

(** The lock and the file: [h] is the thread inside [Logger.log], if any,
    and [pre] is what it has written of its record so far.  The file is
    the initial content, the completed records, and [pre]. *)
Definition sink_ok (file0 : string) (st : state) (h : option nat) (pre : string) : Prop :=
  lock st = bool_decide (is_Some h)
  ∧ file st = (file0 +:+ text (journal_lines (journal st)) +:+ pre)%string
  ∧ (∀ i t, pool st !! i = Some t → h ≠ Some i → ph t = Idle)
  ∧ match h with
    | None => pre = ""%string
    | Some i =>
        ∃ msg rest p,
          pool st !! i = Some (Thread (Log msg :: rest) p)
          ∧ match p with
            | Idle => False
            | Locked => pre = ""%string
            | Writing ts r => (pre +:+ r)%string = record_line ts msg
            end
    end.

(** [join] returns in start order, after all threads are started, and
    only for threads that have ended. *)
Definition joins_ok (st : state) : Prop :=
  (joined st ≤ length (pool st))%nat
  ∧ (unstarted st ≠ [] → joined st = O)
  ∧ ∀ i t, (i < joined st)%nat → pool st !! i = Some t → idle_done t = true.

Record invariant (bodies : list (list event)) (file0 : string) (st : state) : Prop :=
  Invariant {
    inv_results : results_ok bodies st;
    inv_threads : threads_ok bodies st;
    inv_sink : ∃ h pre, sink_ok file0 st h pre;
    inv_joins : joins_ok st
  }.

(** Steps of the machine still ahead when the clock stays as it is. *)
Definition cost (ts : string) (ev : event) : nat :=
  match ev with
  | Log msg => String.length (record_line ts msg) + 3
  | _ => 1
  end.

Definition thread_work (ts : string) (t : thread) : nat :=
  match ph t, todo t with
  | Idle, evs => sum_list (cost ts <$> evs)
  | Locked, Log msg :: rest =>
      String.length (record_line ts msg) + 2 + sum_list (cost ts <$> rest)
  | Writing _ r, _ :: rest => String.length r + 1 + sum_list (cost ts <$> rest)
  | _, _ => O
  end.

Definition work (st : state) : nat :=
  length (unstarted st)
  + (length (pool st) + length (unstarted st) - joined st)
  + sum_list (thread_work (clock st) <$> pool st)
  + sum_list ((λ body, sum_list (cost (clock st) <$> body)) <$> unstarted st).

(** *** The clock and the records *)






(** ** [FibonacciGenerator] and [main] *)

Module FibonacciGenerator.

(** The locals [a, b] of [__iter__] as the generator first tests them. *)
Definition start : Z * Z := (0, 1).

(** One [next()] on the generator: from the locals about to be tested by
    [while a <= self.limit], the value yielded and the locals after
    [a, b = b, a + b]; [None] is [StopIteration]. *)
Definition next (limit : Z) (ab : Z * Z) : option (Z * (Z * Z)) :=
  if bool_decide (ab.1 ≤ limit) then Some (ab.1, (ab.2, ab.1 + ab.2)) else None.

(** The values of at most [fuel] calls of [next], stopping at
    [StopIteration]. *)
Fixpoint take (fuel : nat) (limit : Z) (ab : Z * Z) : list Z :=
  match fuel with
  | O => []
  | S fuel' =>
      match next limit ab with
      | Some (x, ab') => x :: take fuel' limit ab'
      | None => []
      end
  end.

(** [list(FibonacciGenerator(limit))].  The loop yields at most
    [limit + 2] values, so [limit + 3] calls of [next] reach
    [StopIteration]. *)
Definition to_list (limit : Z) : list Z :=
  take (Z.to_nat limit + 3) limit start.

(** [limit: int = 10000] *)
Definition default_limit : Z := 10000.

End FibonacciGenerator.

(** The Fibonacci numbers as usually defined. *)
Fixpoint fib (n : nat) : Z :=
  match n with
  | O => 0
  | S m => match m with
           | O => 1
           | S k => fib k + fib m
           end
  end.

(** What [main] prints once [processor.run(fib)] has returned, under the
    schedule [sched]: [f"Processed {len(squares)} values."]; [None] when
    the schedule ends before [run] returns.  (The line of [TimerContext],
    a formatted float, is not part of it.) *)
Definition main (sched : list choice) (file0 clock0 : string) : option string :=
  let fib := FibonacciGenerator.to_list 1000 in
  squares ← DataProcessor.run fib sched file0 clock0;
  Some ("Processed " +:+ pretty (length squares) +:+ " values.").

(** * Properties *)

(** ** [retry] *)

Section RetryFacts.
Context {St A : Type}.
Implicit Types (call : M St A) (s : St).



(** An attempt that returns ends the loop. *)
Lemma attempts_returned retries delay call attempt rest s v :
  out (call s) = Returned v →
  attempts retries delay call (attempt :: rest) s
  = Ran (Returned (Some v)) (final (call s)) (emitted (call s)).
Proof.
  intros Hv. cbn [attempts].
  unfold try_except, mbind, M_bind, bind, mret, M_ret, ret.
  rewrite Hv. cbn. by rewrite app_nil_r.
Qed.

(** A failed attempt that is not the last one logs, sleeps and goes on. *)
Lemma attempts_retried retries delay call attempt rest s e :
  out (call s) = Raised e → attempt ≠ retries →
  attempts retries delay call (attempt :: rest) s
  = let r := attempts retries delay call rest (final (call s)) in
    Ran (out r) (final r)
        (emitted (call s) ++ [Log (attempt_message attempt e); Sleep delay] ++ emitted r).
Proof.
  intros He Hne. cbn [attempts].
  unfold try_except, mbind, M_bind, bind, mret, M_ret, ret.
  rewrite He. cbn. rewrite bool_decide_eq_false_2 by done. cbn.
  done.
Qed.

(** A failed last attempt logs and raises again. *)
Lemma attempts_exhausted retries delay call rest s e :
  out (call s) = Raised e →
  attempts retries delay call (retries :: rest) s
  = Ran (Raised e) (final (call s))
        (emitted (call s) ++ [Log (attempt_message retries e)]).
Proof.
  intros He. cbn [attempts].
  unfold try_except, mbind, M_bind, bind, mret, M_ret, ret.
  rewrite He. cbn. rewrite bool_decide_eq_true_2 by done. cbn. done.
Qed.


End RetryFacts.







(** C9. With [retries <= 0] the loop has no attempt to make: the decorated
    call returns [None], the callable is not invoked (its state is
    untouched), nothing is raised and nothing is logged. *)
Theorem retry_without_attempts {St A Args} (retries : Z) (delay : Q)
    (func : Args → M St A) (args : Args) (s : St) :
  retries ≤ 0 →
  retry retries delay func args s = Ran (Returned None) s [].
Proof.
  intros Hle. unfold retry, inner. by rewrite seqZ_nil.
Qed.

Lemma retry_without_attempts_witness :
  retry 0 default_delay (λ _ : unit, flaky 5 42) tt O = Ran (Returned None) O [].
Proof.
  apply (retry_without_attempts 0 default_delay (λ _ : unit, flaky 5 42) tt O). lia.
Defined.

(** ** The logger *)

Lemma string_app_assoc (s t u : string) : (s +:+ (t +:+ u) = (s +:+ t) +:+ u)%string.
Proof. induction s as [|c s IH]; [done|]. change (String c (s +:+ (t +:+ u)) = String c ((s +:+ t) +:+ u))%string. by f_equal. Qed.

Lemma string_app_nil_r (s : string) : (s +:+ "" = s)%string.
Proof. induction s as [|c s IH]; [done|]. change (String c (s +:+ "") = String c s)%string. by f_equal. Qed.














(** ** The thread machine *)

Lemma step_moves (c : choice) (st st' : state) :
  step c st = Some st' → moves st c st'.
Proof.
  destruct c as [|i|ts]; cbn.
  - unfold main_step. destruct (unstarted st) as [|body rest] eqn:Hu.
    + destruct (pool st !! joined st) as [t|] eqn:Ht; [|done].
      destruct (idle_done t) eqn:Hd; [|done]. intros [= <-]. by econstructor.
    + intros [= <-]. by constructor.
  - unfold thread_step. destruct (pool st !! i) as [[evs p]|] eqn:Ht; [|done].
    cbn. destruct p as [| |ts [|c r]]; destruct evs as [|[msg|d|v] rest]; cbn; try done.
    + destruct (lock st) eqn:Hl; [done|]. intros [= <-]. by constructor.
    + intros [= <-]. by econstructor.
    + intros [= <-]. by constructor.
    + intros [= <-]. by constructor.
    + intros [= <-]. by constructor.
    + intros [= <-]. by constructor.
  - intros [= <-]. constructor.
Qed.

Lemma moves_step (c : choice) (st st' : state) :
  moves st c st' → step c st = Some st'.
Proof.
  destruct 1 as [body rest Hu|t Hu Ht Hd|ts|i d rest Ht|i v rest Ht
                 |i msg rest Ht Hl|i msg rest Ht|i msg rest ts c r Ht|i msg rest ts Ht];
    cbn; unfold main_step, thread_step;
    rewrite ?Hu, ?Ht; cbn; rewrite ?Hd, ?Hl; done.
Qed.

Lemma sum_list_app (l k : list nat) :
  sum_list (l ++ k) = (sum_list l + sum_list k)%nat.
Proof. induction l as [|x l IH]; cbn; [done|]. rewrite IH. lia. Qed.

Section ListUpdates.
Context {A B : Type}.
Implicit Types (l : list A).

Lemma insert_middle l i t t' :
  l !! i = Some t →
  ∃ l1 l2, l = l1 ++ t :: l2 ∧ <[i := t']> l = l1 ++ t' :: l2.
Proof.
  intros Hi. exists (take i l), (drop (S i) l).
  split; [by rewrite take_drop_middle|].
  apply insert_take_drop. by eapply lookup_lt_Some.
Qed.

Lemma flat_map_insert (f : A → list B) l i t t' :
  l !! i = Some t →
  flat_map f (<[i := t']> l) ++ f t ≡ₚ flat_map f l ++ f t'.
Proof.
  intros Hi. destruct (insert_middle l i t t' Hi) as (l1 & l2 & Hl & ->).
  rewrite Hl. rewrite !flat_map_app. cbn [flat_map].
  rewrite <- !app_assoc.
  apply Permutation_app_head.
  rewrite (Permutation_app_comm (f t') (_ ++ f t)), <- app_assoc.
  rewrite (Permutation_app_comm (f t) (_ ++ f t')), <- app_assoc.
  apply Permutation_app_head, Permutation_app_comm.
Qed.

Lemma flat_map_insert_same (f : A → list B) l i t t' :
  l !! i = Some t → f t' = f t →
  flat_map f (<[i := t']> l) = flat_map f l.
Proof.
  intros Hi Hf. destruct (insert_middle l i t t' Hi) as (l1 & l2 & Hl & ->).
  rewrite Hl. rewrite !flat_map_app. cbn [flat_map]. by rewrite Hf.
Qed.

Lemma sum_list_insert (f : A → nat) l i t t' :
  l !! i = Some t →
  (sum_list (f <$> <[i := t']> l) + f t = sum_list (f <$> l) + f t')%nat.
Proof.
  intros Hi. destruct (insert_middle l i t t' Hi) as (l1 & l2 & Hl & ->).
  rewrite Hl. rewrite !fmap_app, !sum_list_app. cbn. lia.
Qed.
End ListUpdates.

(** Projections of updated states. *)
Ltac proj :=
  cbn [pool results unstarted joined lock file clock journal todo ph
       set_unstarted set_pool set_joined set_lock set_file set_results
       set_clock set_journal set_thread] in *.

(** The cases of a move. *)
Ltac by_move H :=
  destruct H as [body rest Hu|t Hu Ht Hd|ts|i d rest Ht|i v rest Ht
                 |i msg rest Ht Hl|i msg rest Ht|i msg rest ts c r Ht|i msg rest ts Ht];
  proj.

Lemma appends_of_cons ev evs :
  appends_of (ev :: evs)
  = match ev with Append v => [v] | _ => [] end ++ appends_of evs.
Proof. by destruct ev. Qed.

Lemma logs_of_cons ev evs :
  logs_of (ev :: evs)
  = match ev with Log msg => [msg] | _ => [] end ++ logs_of evs.
Proof. by destruct ev. Qed.

Lemma results_ok_moves bodies st c st' :
  moves st c st' → results_ok bodies st → results_ok bodies st'.
Proof.
  unfold results_ok, pending. intros Hm. by_move Hm; intros <-; try done.
  - rewrite Hu, flat_map_app. cbn [flat_map]. by rewrite app_nil_r, <- !app_assoc.
  - by rewrite (flat_map_insert_same _ _ _ _ _ Ht).
  - pose proof (flat_map_insert (λ t, appends_of (todo t)) _ _ _
                  (Thread rest Idle) Ht) as Hp.
    proj. rewrite appends_of_cons, app_assoc in Hp.
    apply Permutation_app_inv_r in Hp. rewrite <- Hp, <- !app_assoc.
    apply Permutation_app_head. cbn [app]. apply Permutation_middle.
  - by rewrite (flat_map_insert_same _ _ _ _ _ Ht).
  - by rewrite (flat_map_insert_same _ _ _ _ _ Ht).
  - by rewrite (flat_map_insert_same _ _ _ _ _ Ht).
  - by rewrite (flat_map_insert_same _ _ _ _ _ Ht).
Qed.

Lemma said_snoc i j k ts msg :
  said i (j ++ [(k, ts, msg)])
  = said i j ++ (if bool_decide (k = i) then [msg] else []).
Proof.
  unfold said. rewrite omap_app. cbn. by destruct (bool_decide (k = i)).
Qed.

(** A step of thread [i] that leaves its logged messages as they are, or
    completes the first of them. *)
Lemma threads_ok_thread bodies st st' i t t' :
  pool st !! i = Some t →
  pool st' = <[i := t']> (pool st) →
  unstarted st' = unstarted st →
  (journal st' = journal st ∧ logs_of (todo t') = logs_of (todo t))
  ∨ (∃ ts msg, journal st' = journal st ++ [(i, ts, msg)]
               ∧ logs_of (todo t) = msg :: logs_of (todo t')) →
  threads_ok bodies st → threads_ok bodies st'.
Proof.
  intros Ht Hp Hu Hj (Hc & Hk & Hs). unfold threads_ok, remaining.
  rewrite Hp, Hu, length_insert. split_and!; [done| |].
  - intros k ts msg Hin.
    destruct Hj as [[Hj _]|(ts' & msg' & Hj & _)]; rewrite Hj in Hin; [by eauto|].
    apply elem_of_app in Hin as [Hin|Hin]; [by eauto|].
    apply list_elem_of_singleton in Hin as [= -> -> ->]. by eapply lookup_lt_Some.
  - intros j. specialize (Hs j). unfold remaining in Hs.
    destruct (decide (j = i)) as [->|Hne].
    + rewrite list_lookup_insert_eq by (by eapply lookup_lt_Some).
      rewrite Ht in Hs. rewrite <- Hs.
      destruct Hj as [[-> ->]|(ts' & msg' & -> & ->)]; [done|].
      rewrite said_snoc, bool_decide_eq_true_2 by done.
      by rewrite <- app_assoc.
    + rewrite list_lookup_insert_ne by done. rewrite <- Hs.
      destruct Hj as [[-> _]|(ts' & msg' & -> & _)]; [done|].
      rewrite said_snoc, bool_decide_eq_false_2 by done.
      by rewrite app_nil_r.
Qed.

Lemma threads_ok_moves bodies st c st' :
  moves st c st' → threads_ok bodies st → threads_ok bodies st'.
Proof.
  intros Hm. by_move Hm.
  - intros (Hc & Hk & Hs). unfold threads_ok, remaining. proj.
    rewrite Hu in Hc. rewrite length_app. cbn [length] in *.
    split_and!; [lia|intros k ts msg Hin; apply Hk in Hin; lia|].
    intros j. specialize (Hs j). unfold remaining in Hs. rewrite Hu in Hs.
    rewrite <- Hs. do 2 f_equal.
    destruct (decide (j < length (pool st))%nat) as [Hlt|Hge].
    + rewrite lookup_app_l by done.
      destruct (lookup_lt_is_Some_2 (pool st) j Hlt) as [t Ht]. by rewrite Ht.
    + rewrite (lookup_ge_None_2 (pool st) j) by lia.
      destruct (decide (j = length (pool st))) as [->|Hne].
      * rewrite list_lookup_middle by done. by rewrite Nat.sub_diag.
      * rewrite lookup_ge_None_2 by (rewrite length_app; cbn; lia).
        replace (j - length (pool st))%nat with (S (j - (length (pool st) + 1)))%nat by lia.
        done.
  - done.
  - done.
  - apply (threads_ok_thread _ _ _ i _ (Thread rest Idle) Ht); auto.
  - apply (threads_ok_thread _ _ _ i _ (Thread rest Idle) Ht); auto.
  - apply (threads_ok_thread _ _ _ i _ (Thread (Log msg :: rest) Locked) Ht); auto.
  - eapply (threads_ok_thread _ _ _ i _ _ Ht); [done..|]. auto.
  - eapply (threads_ok_thread _ _ _ i _ _ Ht); [done..|]. auto.
  - eapply (threads_ok_thread _ _ _ i _ (Thread rest Idle) Ht); [done..|].
    right. by exists ts, msg.
Qed.

Lemma text_snoc (pieces : list string) (piece : string) :
  text (pieces ++ [piece]) = (text pieces +:+ piece)%string.
Proof.
  induction pieces as [|p pieces IH]; cbn.
  - by rewrite string_app_nil_r.
  - fold (text (pieces ++ [piece])). fold (text pieces).
    by rewrite IH, string_app_assoc.
Qed.

Lemma journal_lines_snoc j k ts msg :
  journal_lines (j ++ [(k, ts, msg)]) = journal_lines j ++ [record_line ts msg].
Proof. unfold journal_lines. by rewrite fmap_app. Qed.

(** A thread that is outside [Logger.log] does not hold the lock. *)
Lemma idle_not_holder file0 st h pre i evs :
  sink_ok file0 st h pre →
  pool st !! i = Some (Thread evs Idle) →
  h ≠ Some i.
Proof.
  intros (_ & _ & _ & Hh) Ht ->. destruct Hh as (msg & rest & p & Hp & Hpre).
  rewrite Ht in Hp. by simplify_eq.
Qed.

(** A thread that is inside [Logger.log] is the holder. *)
Lemma busy_is_holder file0 st h pre i evs p :
  sink_ok file0 st h pre →
  pool st !! i = Some (Thread evs p) →
  p ≠ Idle →
  h = Some i
  ∧ match p with
    | Idle => False
    | Locked => pre = ""%string
    | Writing ts r =>
        ∃ msg rest, evs = Log msg :: rest ∧ (pre +:+ r)%string = record_line ts msg
    end.
Proof.
  intros (_ & _ & Hidle & Hh) Ht Hp.
  destruct (decide (h = Some i)) as [->|Hne].
  - split; [done|]. destruct Hh as (msg & rest & p' & Hp' & Hpre).
    rewrite Ht in Hp'. simplify_eq. destruct p'; eauto.
  - by specialize (Hidle i _ Ht Hne).
Qed.

(** Another thread's step leaves the holder where it is. *)
Lemma sink_ok_other file0 st st' h pre i evs t' :
  sink_ok file0 st h pre →
  pool st !! i = Some (Thread evs Idle) →
  ph t' = Idle →
  pool st' = <[i := t']> (pool st) →
  lock st' = lock st → file st' = file st → journal st' = journal st →
  sink_ok file0 st' h pre.
Proof.
  intros Hok Ht Hidle' Hp Hl Hf Hj.
  pose proof (idle_not_holder _ _ _ _ _ _ Hok Ht) as Hne.
  destruct Hok as (Hlock & Hfile & Hidle & Hh).
  unfold sink_ok. rewrite Hp, Hl, Hf, Hj. split_and!; [done|done| |].
  - intros j t Hjt Hnj. apply list_lookup_insert_Some in Hjt as [(<- & <- & _)|[Hij Hjt]];
      [done|by eauto].
  - destruct h as [k|]; [|done].
    destruct Hh as (msg & rest & p & Hk & Hpre). exists msg, rest, p.
    split; [|done]. rewrite list_lookup_insert_ne; [done|congruence].
Qed.

Lemma sink_ok_moves file0 st c st' :
  moves st c st' →
  (∃ h pre, sink_ok file0 st h pre) → ∃ h pre, sink_ok file0 st' h pre.
Proof.
  intros Hm (h & pre & Hok). by_move Hm.
  - exists h, pre. destruct Hok as (Hlock & Hfile & Hidle & Hh).
    unfold sink_ok. proj. split_and!; [done|done| |].
    + intros j t Hjt Hnj. apply lookup_app_Some in Hjt as [Hjt|[_ Hjt]]; [by eauto|].
      apply list_lookup_singleton_Some in Hjt as [_ <-]. done.
    + destruct h as [k|]; [|done].
      destruct Hh as (msg & rest' & p & Hk & Hpre). exists msg, rest', p.
      split; [|done]. by apply lookup_app_l_Some.
  - by exists h, pre.
  - by exists h, pre.
  - exists h, pre. by apply (sink_ok_other file0 st _ h pre i _ (Thread rest Idle) Hok Ht).
  - exists h, pre. by apply (sink_ok_other file0 st _ h pre i _ (Thread rest Idle) Hok Ht).
  - destruct Hok as (Hlock & Hfile & Hidle & Hh). rewrite Hl in Hlock.
    destruct h as [k|]; [done|]. subst pre.
    exists (Some i), ""%string. unfold sink_ok. proj.
    split_and!; [done|done| |].
    + intros j t Hjt Hnj.
      apply list_lookup_insert_Some in Hjt as [(<- & <- & _)|[Hij Hjt]];
        [done|]. by eapply Hidle.
    + exists msg, rest, Locked. split; [|done].
      apply list_lookup_insert_eq. by eapply lookup_lt_Some.
  - destruct (busy_is_holder _ _ _ _ _ _ _ Hok Ht) as [-> ->]; [done|].
    destruct Hok as (Hlock & Hfile & Hidle & Hh).
    exists (Some i), ""%string. unfold sink_ok. proj.
    split_and!; [done|done| |].
    + intros j t Hjt Hnj.
      apply list_lookup_insert_Some in Hjt as [(<- & <- & _)|[Hij Hjt]];
        [done|]. by eapply Hidle.
    + exists msg, rest, (Writing (clock st) (record_line (clock st) msg)).
      split; [|done]. apply list_lookup_insert_eq. by eapply lookup_lt_Some.
  - destruct (busy_is_holder _ _ _ _ _ _ _ Hok Ht) as [-> (msg' & rest' & [= <- <-] & Hpre)];
      [done|].
    destruct Hok as (Hlock & Hfile & Hidle & Hh).
    exists (Some i), (pre +:+ String c "")%string. unfold sink_ok. proj.
    split_and!; [done| | |].
    + by rewrite Hfile, !string_app_assoc.
    + intros j t Hjt Hnj.
      apply list_lookup_insert_Some in Hjt as [(<- & <- & _)|[Hij Hjt]];
        [done|]. by eapply Hidle.
    + exists msg, rest, (Writing ts r). split.
      * apply list_lookup_insert_eq. by eapply lookup_lt_Some.
      * by rewrite <- Hpre, <- string_app_assoc.
  - destruct (busy_is_holder _ _ _ _ _ _ _ Hok Ht) as [-> (msg' & rest' & [= <- <-] & Hpre)];
      [done|].
    rewrite string_app_nil_r in Hpre. subst pre.
    destruct Hok as (Hlock & Hfile & Hidle & Hh).
    exists None, ""%string. unfold sink_ok. proj.
    split_and!; [done| | |done].
    + by rewrite Hfile, journal_lines_snoc, text_snoc, string_app_nil_r, !string_app_assoc.
    + intros j t Hjt _.
      apply list_lookup_insert_Some in Hjt as [(<- & <- & _)|[Hij Hjt]];
        [done|]. eapply Hidle; [done|congruence].
Qed.

(** A step of a thread that has not ended. *)
Lemma joins_ok_thread st st' i t t' :
  pool st !! i = Some t →
  idle_done t = false →
  pool st' = <[i := t']> (pool st) →
  unstarted st' = unstarted st →
  joined st' = joined st →
  joins_ok st → joins_ok st'.
Proof.
  intros Ht Hd Hp Hu Hj (Hle & Hz & Hdone). unfold joins_ok.
  rewrite Hp, Hu, Hj, length_insert. split_and!; [done|done|].
  intros j t'' Hlt Hjt.
  apply list_lookup_insert_Some in Hjt as [(<- & <- & _)|[Hij Hjt]]; [|by eauto].
  specialize (Hdone i t Hlt Ht). congruence.
Qed.

Lemma joins_ok_moves st c st' :
  moves st c st' → joins_ok st → joins_ok st'.
Proof.
  intros Hm. by_move Hm;
    try (by eapply (joins_ok_thread st _ i _ _ Ht)).
  - intros (Hle & Hz & Hdone). unfold joins_ok. proj.
    rewrite Hz by (by rewrite Hu). split_and!; [lia|done|]. intros j t' Hlt. lia.
  - intros (Hle & Hz & Hdone). unfold joins_ok. proj.
    split_and!; [by eapply lookup_lt_Some|by rewrite Hu|].
    intros j t' Hlt Hjt. destruct (decide (j = joined st)) as [->|Hne].
    + by simplify_eq.
    + apply (Hdone j); [lia|done].
  - done.
Qed.

Lemma invariant_init bodies file0 clock0 :
  invariant bodies file0 (init bodies file0 clock0).
Proof.
  split.
  - unfold results_ok, pending. cbn. done.
  - unfold threads_ok, remaining. cbn. split_and!; [done|by intros ??? ?%elem_of_nil|].
    intros i. by rewrite Nat.sub_0_r.
  - exists None, ""%string. unfold sink_ok. cbn.
    split_and!; [done| |done|done]. by rewrite !string_app_nil_r.
  - unfold joins_ok. cbn. split_and!; [done|done|]. intros i t Hi. lia.
Qed.

Lemma invariant_moves bodies file0 st c st' :
  moves st c st' → invariant bodies file0 st → invariant bodies file0 st'.
Proof.
  intros Hm [Hr Ht Hs Hj]. split.
  - by eapply results_ok_moves.
  - by eapply threads_ok_moves.
  - by eapply sink_ok_moves.
  - by eapply joins_ok_moves.
Qed.

Lemma invariant_exec bodies file0 sched : ∀ st,
  invariant bodies file0 st → invariant bodies file0 (exec sched st).
Proof.
  induction sched as [|c sched IH]; intros st Hinv; [done|].
  cbn. apply IH. destruct (step c st) as [st'|] eqn:Hstep; [|done].
  cbn. eapply invariant_moves; [|done]. by apply step_moves.
Qed.

Lemma exec_app sched1 sched2 st :
  exec (sched1 ++ sched2) st = exec sched2 (exec sched1 st).
Proof. apply foldl_app. Qed.

(** No deadlock: while [run] has not returned, some thread can move. *)
Lemma progress bodies file0 st :
  invariant bodies file0 st →
  returned st = false →
  ∃ c st', step c st = Some st' ∧ (c = Main ∨ ∃ i, c = Run i).
Proof.
  intros [_ _ (h & pre & Hlock & _ & Hidle & Hh) (Hle & Hz & Hdone)] Hret.
  destruct (unstarted st) as [|body rest] eqn:Hu.
  2:{ eexists Main, _. split; [|by left]. cbn. unfold main_step. by rewrite Hu. }
  destruct h as [i|].
  { destruct Hh as (msg & rest & p & Hi & Hp).
    destruct p as [| |ts [|c r]]; [by destruct Hp|..];
      (eexists (Run i), _; split; [|by eauto]);
      cbn; unfold thread_step; rewrite Hi; reflexivity. }
  assert (joined st < length (pool st))%nat as Hlt.
  { apply bool_decide_eq_false in Hret. destruct (decide (joined st = length (pool st)));
      [by destruct Hret|lia]. }
  destruct (lookup_lt_is_Some_2 _ _ Hlt) as [[evs p] Ht].
  assert (p = Idle) as -> by (by apply (Hidle _ _ Ht)).
  destruct evs as [|[msg|d|v] evs].
  - eexists Main, _. split; [|by left]. cbn. unfold main_step. rewrite Hu, Ht. done.
  - eexists (Run _), _. split; [|by eauto]. cbn. unfold thread_step. rewrite Ht. cbn.
    by rewrite Hlock.
  - eexists (Run _), _. split; [|by eauto]. cbn. unfold thread_step. by rewrite Ht.
  - eexists (Run _), _. split; [|by eauto]. cbn. unfold thread_step. by rewrite Ht.
Qed.

(** Every step of a thread, the main one included, uses up one unit of
    [work]; only the clock may move for free. *)
Lemma work_moves st c st' :
  moves st c st' → joins_ok st → (c = Main ∨ ∃ i, c = Run i) →
  work st = S (work st').
Proof.
  intros Hm (Hle & Hz & _) Hc. unfold work.
  by_move Hm;
    try (pose proof (sum_list_insert (thread_work (clock st)) _ _ _
                       (Thread rest Idle) Ht) as Hs);
    try (pose proof (sum_list_insert (thread_work (clock st)) _ _ _
                       (Thread (Log msg :: rest) Locked) Ht) as Hs');
    try (pose proof (sum_list_insert (thread_work (clock st)) _ _ _
                       (Thread (Log msg :: rest)
                               (Writing (clock st) (record_line (clock st) msg))) Ht) as Hw);
    try (pose proof (sum_list_insert (thread_work (clock st)) _ _ _
                       (Thread (Log msg :: rest) (Writing ts r)) Ht) as Hw');
    rewrite ?length_insert, ?length_app, ?fmap_app, ?sum_list_app;
    cbn [thread_work todo ph fmap list_fmap sum_list sum_list_with cost length
         String.length id] in *.
  - rewrite Hz by (by rewrite Hu). rewrite Hu. cbn. lia.
  - apply lookup_lt_Some in Ht. rewrite Hu. cbn. lia.
  - by destruct Hc as [|[? ?]].
  - lia.
  - lia.
  - lia.
  - lia.
  - lia.
  - lia.
Qed.

(** From any state the machine can reach, some schedule makes [run]
    return. *)
Lemma completion bodies file0 : ∀ n st,
  work st = n → invariant bodies file0 st →
  ∃ sched, returned (exec sched st) = true.
Proof.
  induction n as [n IH] using lt_wf_ind. intros st Hn Hinv.
  destruct (returned st) eqn:Hret; [by exists []|].
  destruct (progress _ _ _ Hinv Hret) as (c & st' & Hstep & Hc).
  pose proof (step_moves _ _ _ Hstep) as Hm.
  pose proof (work_moves _ _ _ Hm (inv_joins _ _ _ Hinv) Hc) as Hw.
  destruct (IH (work st') ltac:(lia) st' eq_refl (invariant_moves _ _ _ _ _ Hm Hinv))
    as [sched Hsched].
  exists (c :: sched). cbn. by rewrite Hstep.
Qed.

Lemma returned_spec st :
  returned st = true ↔ unstarted st = [] ∧ joined st = length (pool st).
Proof. unfold returned. by rewrite bool_decide_eq_true. Qed.

(** What holds when [run] returns. *)
Lemma returned_facts bodies file0 st :
  invariant bodies file0 st →
  returned st = true →
  results st ≡ₚ flat_map appends_of bodies
  ∧ length (pool st) = length bodies
  ∧ Forall (λ t, todo t = [] ∧ ph t = Idle) (pool st)
  ∧ (∀ i, said i (journal st) = logs_of (default [] (bodies !! i)))
  ∧ file st = (file0 +:+ text (journal_lines (journal st)))%string
  ∧ lock st = false.
Proof.
  intros [Hr (Hc & Hk & Hs) (h & pre & Hlock & Hfile & Hidle & Hh) (Hle & Hz & Hdone)]
         [Hu Hj]%returned_spec.
  assert (Forall (λ t, todo t = [] ∧ ph t = Idle) (pool st)) as Hall.
  { apply Forall_lookup. intros i t Ht.
    assert (idle_done t = true) as Hd.
    { apply (Hdone i); [|done]. rewrite Hj. by eapply lookup_lt_Some. }
    unfold idle_done in Hd. by destruct (todo t), (ph t). }
  assert (h = None) as ->.
  { destruct h as [i|]; [|done]. destruct Hh as (msg & rest & p & Hi & _).
    by destruct (Forall_lookup_1 _ _ _ _ Hall Hi). }
  subst pre. rewrite string_app_nil_r in Hfile.
  split_and!; try done.
  - rewrite <- Hr. unfold pending. rewrite Hu. cbn. rewrite app_nil_r.
    assert (flat_map (λ t, appends_of (todo t)) (pool st) = []) as ->;
      [|by rewrite app_nil_r].
    clear -Hall. induction Hall as [|t l [Ht _] _ IH]; [done|].
    cbn [flat_map]. by rewrite IH, Ht.
  - rewrite Hu in Hc. cbn in Hc. lia.
  - intros i. rewrite <- Hs. unfold remaining. rewrite Hu.
    destruct (pool st !! i) as [t|] eqn:Ht.
    + destruct (Forall_lookup_1 _ _ _ _ Hall Ht) as [-> _]. by rewrite app_nil_r.
    + by rewrite app_nil_r.
Qed.

Lemma said_cons i k ts msg j :
  said i ((k, ts, msg) :: j)
  = (if bool_decide (k = i) then [msg] else []) ++ said i j.
Proof. unfold said. cbn. by destruct (bool_decide (k = i)). Qed.

Lemma said_cons_absent k ts msg j (l : list nat) :
  k ∉ l →
  flat_map (λ i, said i ((k, ts, msg) :: j)) l = flat_map (λ i, said i j) l.
Proof.
  induction l as [|i l IH]; [done|]. intros [Hne Hni]%not_elem_of_cons.
  cbn [flat_map]. rewrite IH by done. rewrite said_cons.
  by rewrite bool_decide_eq_false_2.
Qed.

Lemma said_cons_present k ts msg j (l : list nat) :
  NoDup l → k ∈ l →
  flat_map (λ i, said i ((k, ts, msg) :: j)) l ≡ₚ msg :: flat_map (λ i, said i j) l.
Proof.
  induction l as [|i l IH]; intros Hnd Hin; [by apply elem_of_nil in Hin|].
  apply list.NoDup_cons in Hnd as [Hni Hnd]. cbn [flat_map]. rewrite said_cons.
  destruct (decide (k = i)) as [->|Hne].
  - rewrite bool_decide_eq_true_2 by done. cbn [app].
    by rewrite said_cons_absent.
  - rewrite bool_decide_eq_false_2 by done. cbn [app].
    apply elem_of_cons in Hin as [->|Hin]; [done|].
    rewrite IH by done. symmetry. apply Permutation_middle.
Qed.

(** The messages of the journal are those of its threads, put together. *)
Lemma said_partition (n : nat) (j : list (nat * string * string)) :
  (∀ k ts msg, (k, ts, msg) ∈ j → (k < n)%nat) →
  snd <$> j ≡ₚ flat_map (λ i, said i j) (seq 0 n).
Proof.
  induction j as [|[[k ts] msg] j IH]; intros Hk.
  - cbn. clear. induction (seq 0 n) as [|i l IH]; [done|]. by cbn.
  - rewrite fmap_cons. cbn [snd].
    rewrite IH by (intros k' ts' msg' Hin; eapply Hk; by right).
    rewrite said_cons_present; [done|apply NoDup_seq|].
    apply elem_of_seq. specialize (Hk k ts msg (list_elem_of_here _ _)). lia.
Qed.

(** ** [DataProcessor.process] and [task] *)

Lemma process_body_unlucky (data : Z) (s : unit) :
  data `mod` 13 = 0 →
  DataProcessor.process_body data s = Ran (Raised (ValueError "Unlucky number!")) s [].
Proof.
  intros H. unfold DataProcessor.process_body. by rewrite bool_decide_eq_true_2.
Qed.

Lemma process_body_lucky (data : Z) (s : unit) :
  data `mod` 13 ≠ 0 →
  DataProcessor.process_body data s
  = Ran (Returned (data ^ 2)) s
        [Sleep (1 # 100)%Q; Log ("Processed: " +:+ pretty data)].
Proof.
  intros H. unfold DataProcessor.process_body. by rewrite bool_decide_eq_false_2.
Qed.

Lemma process_unlucky (data : Z) :
  data `mod` 13 = 0 →
  DataProcessor.process data tt
  = Ran (Raised (ValueError "Unlucky number!")) tt
        [Log "Attempt 1 failed: Unlucky number!"; Sleep 1;
         Log "Attempt 2 failed: Unlucky number!"].
Proof.
  intros H. unfold DataProcessor.process, retry, inner.
  change (seqZ 1 2) with [1; 2].
  rewrite (attempts_retried _ _ _ _ _ _ (ValueError "Unlucky number!"));
    [|by rewrite process_body_unlucky|done].
  rewrite !process_body_unlucky by done. cbn [final emitted].
  rewrite (attempts_exhausted _ _ _ _ _ (ValueError "Unlucky number!"));
    [|by rewrite process_body_unlucky].
  by rewrite !process_body_unlucky by done.
Qed.

Lemma process_lucky (data : Z) :
  data `mod` 13 ≠ 0 →
  DataProcessor.process data tt
  = Ran (Returned (Some (data ^ 2))) tt
        [Sleep (1 # 100)%Q; Log ("Processed: " +:+ pretty data)].
Proof.
  intros H. unfold DataProcessor.process, retry, inner.
  change (seqZ 1 2) with [1; 2].
  rewrite (attempts_returned _ _ _ _ _ _ (data ^ 2));
    by rewrite process_body_lucky.
Qed.

Lemma task_unlucky (val : Z) :
  val `mod` 13 = 0 →
  DataProcessor.task val tt
  = Ran (Returned tt) tt
        [Log "Attempt 1 failed: Unlucky number!"; Sleep 1;
         Log "Attempt 2 failed: Unlucky number!";
         Log ("Failed processing " +:+ pretty val +:+ ": Unlucky number!")].
Proof.
  intros H. unfold DataProcessor.task, try_except, mbind, M_bind, bind.
  by rewrite process_unlucky.
Qed.

Lemma task_lucky (val : Z) :
  val `mod` 13 ≠ 0 →
  DataProcessor.task val tt
  = Ran (Returned tt) tt
        [Sleep (1 # 100)%Q; Log ("Processed: " +:+ pretty val); Append (Some (val ^ 2))].
Proof.
  intros H. unfold DataProcessor.task, try_except, mbind, M_bind, bind.
  by rewrite process_lucky.
Qed.

(** What the batch appends: the square of every value that 13 does not
    divide. *)
Lemma appends_of_bodies (values : list Z) :
  flat_map appends_of (DataProcessor.thread_body <$> values)
  = (λ x, Some (x ^ 2)) <$> filter (λ x, x `mod` 13 ≠ 0) values.
Proof.
  induction values as [|x values IH]; [done|].
  rewrite fmap_cons. cbn [flat_map]. rewrite IH. unfold DataProcessor.thread_body.
  destruct (decide (x `mod` 13 = 0)) as [H|H].
  - rewrite task_unlucky by done. rewrite filter_cons_False by (by intros ?). done.
  - rewrite task_lucky by done. by rewrite filter_cons_True.
Qed.

(** The machine of a batch keeps the invariant, and [run] can always
    return. *)
Lemma machine_invariant values sched file0 clock0 :
  invariant (DataProcessor.thread_body <$> values) file0
            (DataProcessor.machine values sched file0 clock0).
Proof. apply invariant_exec, invariant_init. Qed.

Lemma run_spec values sched file0 clock0 res :
  DataProcessor.run values sched file0 clock0 = Some res
  ↔ returned (DataProcessor.machine values sched file0 clock0) = true
    ∧ res = results (DataProcessor.machine values sched file0 clock0).
Proof.
  unfold DataProcessor.run. destruct (returned _); split.
  - by intros [= <-].
  - by intros [_ ->].
  - done.
  - by intros [? _].
Qed.

Lemma run_can_return values sched file0 clock0 :
  ∃ more res, DataProcessor.run values (sched ++ more) file0 clock0 = Some res.
Proof.
  destruct (completion _ file0 _ _ eq_refl (machine_invariant values sched file0 clock0))
    as [more Hret].
  exists more, (results (DataProcessor.machine values (sched ++ more) file0 clock0)).
  apply run_spec. split; [|done]. unfold DataProcessor.machine. by rewrite exec_app.
Qed.

Lemma run_results values sched file0 clock0 res :
  DataProcessor.run values sched file0 clock0 = Some res →
  res ≡ₚ (λ x, Some (x ^ 2)) <$> filter (λ x, x `mod` 13 ≠ 0) values.
Proof.
  intros [Hret ->]%run_spec.
  destruct (returned_facts _ _ _ (machine_invariant values sched file0 clock0) Hret)
    as (Hres & _).
  by rewrite Hres, appends_of_bodies.
Qed.

(** ** The batch *)







(** C1, as amended.  For the batch [0, 1, 13, 26, 5] (with [retries = 2]),
    when [run] has returned: the list holds exactly 1 and 25, once each,
    in some order; 13 divides 0 as it divides 13 and 26, so each of these
    three has no result and its thread has logged exactly the two failed
    attempts and then the failure of the item; the threads of 1 and 5 have
    logged one success record each: eleven records in all. *)
Theorem batch_example (sched : list choice) (file0 clock0 : string) :
  let st := DataProcessor.machine [0; 1; 13; 26; 5] sched file0 clock0 in
  returned st = true →
  DataProcessor.run [0; 1; 13; 26; 5] sched file0 clock0 = Some (results st)
  ∧ results st ≡ₚ [Some 1; Some 25]
  ∧ said 0 (journal st) = ["Attempt 1 failed: Unlucky number!";
                           "Attempt 2 failed: Unlucky number!";
                           "Failed processing 0: Unlucky number!"]%string
  ∧ said 1 (journal st) = ["Processed: 1"]%string
  ∧ said 2 (journal st) = ["Attempt 1 failed: Unlucky number!";
                           "Attempt 2 failed: Unlucky number!";
                           "Failed processing 13: Unlucky number!"]%string
  ∧ said 3 (journal st) = ["Attempt 1 failed: Unlucky number!";
                           "Attempt 2 failed: Unlucky number!";
                           "Failed processing 26: Unlucky number!"]%string
  ∧ said 4 (journal st) = ["Processed: 5"]%string
  ∧ length (journal st) = 11%nat.
Proof.
  intros st Hret.
  destruct (returned_facts _ _ _ (machine_invariant [0; 1; 13; 26; 5] sched file0 clock0) Hret)
    as (Hres & Hlen & _ & Hsaid & _).
  fold st in Hres, Hlen, Hsaid.
  split_and!; try (by rewrite Hsaid); try done.
  - by apply run_spec.
  - destruct (machine_invariant [0; 1; 13; 26; 5] sched file0 clock0)
      as [_ (_ & Hk & _) _ _]. fold st in Hk.
    rewrite <- (length_fmap snd), (said_partition 5 (journal st)).
    + cbn [seq flat_map]. by rewrite !Hsaid.
    + intros k ts msg Hin. specialize (Hk k ts msg Hin). by rewrite Hlen in Hk.
Qed.

Lemma batch_example_witness :
  let st := DataProcessor.machine [0; 1; 13; 26; 5] (seq_sched 5 200) "" "T" in
  DataProcessor.run [0; 1; 13; 26; 5] (seq_sched 5 200) "" "T" = Some (results st)
  ∧ results st ≡ₚ [Some 1; Some 25]
  ∧ said 0 (journal st) = ["Attempt 1 failed: Unlucky number!";
                           "Attempt 2 failed: Unlucky number!";
                           "Failed processing 0: Unlucky number!"]%string
  ∧ said 1 (journal st) = ["Processed: 1"]%string
  ∧ said 2 (journal st) = ["Attempt 1 failed: Unlucky number!";
                           "Attempt 2 failed: Unlucky number!";
                           "Failed processing 13: Unlucky number!"]%string
  ∧ said 3 (journal st) = ["Attempt 1 failed: Unlucky number!";
                           "Attempt 2 failed: Unlucky number!";
                           "Failed processing 26: Unlucky number!"]%string
  ∧ said 4 (journal st) = ["Processed: 5"]%string
  ∧ length (journal st) = 11%nat.
Proof.
  apply (batch_example (seq_sched 5 200) "" "T"). vm_compute. reflexivity.
Defined.

(** C1 as stated fails: 13 divides 0, so the item 0 fails like 13 and 26
    and the returned list holds 1 and 25 only; the thread of item 0 has
    logged two failed attempts. *)
Lemma batch_example_without_zero :
  0 `mod` 13 = 0
  ∧ DataProcessor.run [0; 1; 13; 26; 5] (seq_sched 5 200) "" "T" = Some [Some 1; Some 25]
  ∧ (Some 0 ∉ [Some 1; Some 25])
  ∧ said 0 (journal (DataProcessor.machine [0; 1; 13; 26; 5] (seq_sched 5 200) "" "T"))
    = ["Attempt 1 failed: Unlucky number!"; "Attempt 2 failed: Unlucky number!";
       "Failed processing 0: Unlucky number!"]%string.
Proof.
  split_and!; [done|by vm_compute| |by vm_compute].
  intros Hin. repeat (apply elem_of_cons in Hin as [[=]|Hin]). by apply elem_of_nil in Hin.
Qed.






(** ** The first construction call under a race *)


(** ** [FibonacciGenerator] *)

Lemma fib_step (n : nat) : fib (S (S n)) = fib n + fib (S n).
Proof. done. Qed.

Lemma fib_nonneg (n : nat) : 0 ≤ fib n ∧ 0 ≤ fib (S n).
Proof.
  induction n as [|n [IH1 IH2]]; [done|]. rewrite fib_step. lia.
Qed.

Lemma fib_le_succ (n : nat) : fib n ≤ fib (S n).
Proof.
  destruct n as [|n]; [done|]. rewrite fib_step. pose proof (fib_nonneg n). lia.
Qed.

Lemma fib_mono (n m : nat) : (n ≤ m)%nat → fib n ≤ fib m.
Proof.
  induction 1 as [|m _ IH]; [done|]. pose proof (fib_le_succ m). lia.
Qed.

Lemma fib_positive (n : nat) : 1 ≤ fib (S n).
Proof.
  pose proof (fib_mono 1 (S n) ltac:(lia)) as H. by cbn in H.
Qed.

Lemma fib_lower (n : nat) : Z.of_nat n + 1 ≤ fib (S (S n)).
Proof.
  induction n as [|n IH]; [done|].
  rewrite fib_step. pose proof (fib_positive n). lia.
Qed.

(** The values taken from the locals [(fib k, fib (k + 1))]. *)
Lemma take_fib (limit : Z) (fuel : nat) : ∀ k,
  ∃ m, (m ≤ fuel)%nat
       ∧ FibonacciGenerator.take fuel limit (fib k, fib (S k)) = fib <$> seq k m
       ∧ (∀ j, (j < k + m)%nat → (k ≤ j)%nat → fib j ≤ limit)
       ∧ ((m < fuel)%nat → limit < fib (k + m)).
Proof.
  induction fuel as [|fuel IH]; intros k.
  - exists O. split_and!; [done|done|intros; lia|lia].
  - cbn [FibonacciGenerator.take]. unfold FibonacciGenerator.next. cbn [fst snd].
    destruct (decide (fib k ≤ limit)) as [Hk|Hk].
    + rewrite bool_decide_eq_true_2 by done.
      rewrite <- fib_step. destruct (IH (S k)) as (m & Hm & -> & Hle & Hgt).
      exists (S m). split_and!; [lia|done| |].
      * intros j Hj1 Hj2. destruct (decide (j = k)) as [->|]; [done|].
        apply Hle; lia.
      * intros Hlt. replace (k + S m)%nat with (S k + m)%nat by lia. apply Hgt. lia.
    + rewrite bool_decide_eq_false_2 by done. exists O.
      split_and!; [lia|done|intros; lia|]. intros _. rewrite Nat.add_0_r. lia.
Qed.

(** With [limit + 3] calls of [next] or more, the run is ended by the
    test of the loop, after at most [limit + 2] values. *)
Lemma take_enough (limit : Z) (fuel : nat) :
  (Z.to_nat limit + 3 ≤ fuel)%nat →
  ∃ n, FibonacciGenerator.take fuel limit FibonacciGenerator.start = fib <$> seq 0 n
       ∧ (∀ j, (j < n)%nat → fib j ≤ limit)
       ∧ limit < fib n
       ∧ (Z.of_nat n ≤ Z.max 0 (limit + 2)).
Proof.
  intros Hfuel. unfold FibonacciGenerator.start.
  destruct (take_fib limit fuel 0) as (n & Hn & Heq & Hle & Hgt).
  assert (Z.of_nat n ≤ Z.max 0 (limit + 2)) as Hbound.
  { destruct n as [|[|n]]; [lia| |].
    - specialize (Hle O ltac:(lia) ltac:(lia)). cbn in Hle. lia.
    - specialize (Hle (S n) ltac:(lia) ltac:(lia)).
      destruct n as [|n]; [cbn in Hle; lia|].
      pose proof (fib_lower n). lia. }
  exists n. split_and!; [done|intros j Hj; apply Hle; lia| |done].
  apply Hgt. lia.
Qed.

(** Where the Fibonacci numbers pass [limit] is one place only. *)
Lemma fib_cut_unique (limit : Z) (n n' : nat) :
  (∀ j, (j < n)%nat → fib j ≤ limit) → limit < fib n →
  (∀ j, (j < n')%nat → fib j ≤ limit) → limit < fib n' →
  n = n'.
Proof.
  intros Hle Hgt Hle' Hgt'.
  destruct (decide (n < n')%nat) as [H|H]; [specialize (Hle' n H); lia|].
  destruct (decide (n' < n)%nat) as [H'|H']; [specialize (Hle n' H'); lia|]. lia.
Qed.

Lemma to_list_fib (limit : Z) :
  ∃ n, FibonacciGenerator.to_list limit = fib <$> seq 0 n
       ∧ (∀ j, (j < n)%nat → fib j ≤ limit)
       ∧ limit < fib n
       ∧ (Z.of_nat n ≤ Z.max 0 (limit + 2)).
Proof. by apply take_enough. Qed.

(** X2. [list(FibonacciGenerator(limit))] is the list of the Fibonacci
    numbers [fib 0, fib 1, ...] in order, up to the last one that does not
    exceed [limit]: a Fibonacci number is listed exactly when it is at
    most [limit], and the list is empty exactly when [limit] is
    negative. *)
Theorem fibonacci_list (limit : Z) :
  ∃ n, FibonacciGenerator.to_list limit = fib <$> seq 0 n
       ∧ (∀ m, fib m ≤ limit ↔ (m < n)%nat)
       ∧ (n = O ↔ limit < 0).
Proof.
  destruct (to_list_fib limit) as (n & Heq & Hle & Hgt & _).
  exists n. split_and!; [done| |].
  - intros m. split; [|by apply Hle]. intros Hm.
    destruct (decide (m < n)%nat) as [|Hge]; [done|].
    pose proof (fib_mono n m ltac:(lia)). lia.
  - split; [intros ->; by cbn in Hgt|]. intros Hneg.
    destruct n as [|n]; [done|]. specialize (Hle O ltac:(lia)). cbn in Hle. lia.
Qed.

(** X3. The generator stops: for every [limit], calling [next] more often
    than [limit + 3] times yields nothing more than the list, which has
    at most [limit + 2] values, and the call after its last value raises
    [StopIteration]. *)
Theorem fibonacci_stops (limit : Z) (fuel : nat) :
  (Z.to_nat limit + 3 ≤ fuel)%nat →
  let l := FibonacciGenerator.to_list limit in
  FibonacciGenerator.take fuel limit FibonacciGenerator.start = l
  ∧ (length l ≤ Z.to_nat limit + 2)%nat
  ∧ FibonacciGenerator.next limit (fib (length l), fib (S (length l))) = None.
Proof.
  intros Hfuel l. subst l.
  destruct (to_list_fib limit) as (n & Heq & Hle & Hgt & Hn).
  destruct (take_enough limit fuel Hfuel) as (n' & Heq' & Hle' & Hgt' & _).
  rewrite (fib_cut_unique limit n' n) in Heq' by done.
  rewrite Heq, Heq', length_fmap, length_seq. split_and!; [done|lia|].
  unfold FibonacciGenerator.next. cbn [fst]. by rewrite bool_decide_eq_false_2 by lia.
Qed.

Lemma fibonacci_stops_witness :
  let l := FibonacciGenerator.to_list 20 in
  FibonacciGenerator.take 50 20 FibonacciGenerator.start = l
  ∧ (length l ≤ Z.to_nat 20 + 2)%nat
  ∧ FibonacciGenerator.next 20 (fib (length l), fib (S (length l))) = None.
Proof. apply (fibonacci_stops 20 50). vm_compute. lia. Defined.

(** X4. A larger limit only adds values at the end: for
    [limit1 <= limit2] the list for [limit1] is a prefix of the list for
    [limit2]. *)
Theorem fibonacci_prefix (limit1 limit2 : Z) :
  limit1 ≤ limit2 →
  FibonacciGenerator.to_list limit1 `prefix_of` FibonacciGenerator.to_list limit2.
Proof.
  intros Hle.
  destruct (to_list_fib limit1) as (n1 & -> & Hle1 & Hgt1 & _).
  destruct (to_list_fib limit2) as (n2 & -> & Hle2 & Hgt2 & _).
  assert (n1 ≤ n2)%nat as Hn.
  { destruct (decide (n1 ≤ n2)%nat) as [|Hlt]; [done|].
    specialize (Hle1 n2 ltac:(lia)). lia. }
  exists (fib <$> seq n1 (n2 - n1)).
  rewrite <- fmap_app. f_equal.
  replace n2 with (n1 + (n2 - n1))%nat at 1 by lia. apply seq_app.
Qed.

Lemma fibonacci_prefix_witness :
  FibonacciGenerator.to_list 10 `prefix_of` FibonacciGenerator.to_list 1000.
Proof. apply (fibonacci_prefix 10 1000). lia. Defined.

(** X5. Whatever the schedule, [main] can be brought to its report, and
    the report is always [Processed 14 values.]: of the seventeen
    Fibonacci numbers up to 1000, 13 divides three (0, 13, 377). *)
Theorem main_reports_fourteen (sched : list choice) (file0 clock0 : string) :
  (∃ more, main (sched ++ more) file0 clock0 = Some "Processed 14 values."%string)
  ∧ (∀ report, main sched file0 clock0 = Some report →
       report = "Processed 14 values."%string).
Proof.
  assert (∀ sched' report, main sched' file0 clock0 = Some report →
            report = "Processed 14 values."%string) as Hrep.
  { intros sched' report. unfold main.
    destruct (DataProcessor.run _ sched' file0 clock0) as [res|] eqn:Hres; [|done].
    cbn. intros [= <-]. apply run_results in Hres.
    rewrite Hres, length_fmap. by vm_compute. }
  split; [|by apply Hrep].
  destruct (run_can_return (FibonacciGenerator.to_list 1000) sched file0 clock0)
    as (more & res & Hres).
  exists more.
  assert (main (sched ++ more) file0 clock0
          = Some ("Processed " +:+ pretty (length res) +:+ " values.")%string) as Hm.
  { unfold main. by rewrite Hres. }
  rewrite Hm. f_equal. by apply (Hrep (sched ++ more)).
Qed.

(** ** More on the thread machine *)

(** X6. Mutual exclusion, for any threads under any schedule: at most one
    thread is inside [Logger.log] (holding the lock, formatting or
    writing), the lock is held exactly when there is one, and a thread is
    there only for the [log] call it has to make next. *)
Theorem one_thread_inside_log (bodies : list (list event)) (sched : list choice)
    (file0 clock0 : string) :
  let st := exec sched (init bodies file0 clock0) in
  (∀ i j ti tj, pool st !! i = Some ti → pool st !! j = Some tj →
                ph ti ≠ Idle → ph tj ≠ Idle → i = j)
  ∧ (lock st = true ↔ ∃ i t, pool st !! i = Some t ∧ ph t ≠ Idle)
  ∧ (∀ i t, pool st !! i = Some t → ph t ≠ Idle → ∃ msg rest, todo t = Log msg :: rest).
Proof.
  intros st.
  destruct (invariant_exec bodies file0 sched _ (invariant_init bodies file0 clock0))
    as [_ _ (h & pre & Hok) _].
  fold st in Hok. split_and!.
  - intros i j [ei pi] [ej pj] Hi Hj Hpi Hpj.
    destruct (busy_is_holder _ _ _ _ _ _ _ Hok Hi Hpi) as [Hhi _].
    destruct (busy_is_holder _ _ _ _ _ _ _ Hok Hj Hpj) as [Hhj _]. congruence.
  - destruct Hok as (Hlock & _ & Hidle & Hh). rewrite Hlock. split.
    + intros Hsome%bool_decide_eq_true. destruct h as [i|]; [|by destruct Hsome].
      destruct Hh as (msg & rest & p & Hi & Hp). exists i, (Thread (Log msg :: rest) p).
      split; [done|]. cbn. by destruct p.
    + intros (i & [ei pi] & Hi & Hp). apply bool_decide_eq_true.
      destruct (decide (h = Some i)) as [->|Hne]; [by eexists|].
      by specialize (Hidle i _ Hi Hne).
  - intros i [ei pi] Hi Hp. cbn in Hp.
    destruct (busy_is_holder _ _ _ _ _ _ _ Hok Hi Hp) as [-> _].
    destruct Hok as (_ & _ & _ & (msg & rest & p & Hi' & _)).
    rewrite Hi in Hi'. injection Hi' as -> _. by eexists _, _.
Qed.

(** A move only adds to the file, to the results and to the journal. *)
Lemma moves_grow st c st' :
  moves st c st' →
  (∃ more, file st' = (file st +:+ more)%string)
  ∧ results st `prefix_of` results st'
  ∧ journal st `prefix_of` journal st'.
Proof.
  intros Hm. by_move Hm;
    (split_and!;
     [first [by exists ""%string; rewrite string_app_nil_r | by eexists]
     |first [done | by eexists]
     |first [done | by eexists]]).
Qed.

Lemma exec_cons c more st :
  exec (c :: more) st = exec more (default st (step c st)).
Proof. done. Qed.

Lemma exec_grow (more : list choice) : ∀ st,
  (∃ suffix, file (exec more st) = (file st +:+ suffix)%string)
  ∧ results st `prefix_of` results (exec more st)
  ∧ journal st `prefix_of` journal (exec more st).
Proof.
  induction more as [|c more IH]; intros st.
  - split_and!; [|done|done]. exists ""%string. by rewrite string_app_nil_r.
  - rewrite exec_cons.
    destruct (step c st) as [st'|] eqn:Hstep; [|apply IH].
    change (default st (Some st')) with st'.
    destruct (moves_grow _ _ _ (step_moves _ _ _ Hstep)) as ([m1 Hf1] & Hr1 & Hj1).
    destruct (IH st') as ([m2 Hf2] & Hr2 & Hj2).
    split_and!.
    + exists (m1 +:+ m2)%string. by rewrite Hf2, Hf1, string_app_assoc.
    + by etrans.
    + by etrans.
Qed.

(** X7. Nothing is ever taken back: as a schedule goes on, the log file
    keeps what it held and grows at its end only (so its initial content
    stays in front), and the results and the completed records stay where
    they are, new ones coming after them. *)
Theorem log_and_results_only_grow (bodies : list (list event))
    (sched more : list choice) (file0 clock0 : string) :
  let st := exec sched (init bodies file0 clock0) in
  let st' := exec (sched ++ more) (init bodies file0 clock0) in
  (∃ suffix, file st' = (file st +:+ suffix)%string)
  ∧ (∃ written, file st = (file0 +:+ written)%string)
  ∧ results st `prefix_of` results st'
  ∧ journal st `prefix_of` journal st'.
Proof.
  intros st st'. subst st st'. rewrite exec_app.
  destruct (exec_grow more (exec sched (init bodies file0 clock0))) as (Hf & Hr & Hj).
  destruct (exec_grow sched (init bodies file0 clock0)) as (Hf0 & _).
  split_and!; done.
Qed.






(** *** Records are stamped in the order of the clock *)









(** ** [retry], whatever the callable does *)




(** ** Construction calls under any schedule *)

Lemma race_invariant (P : registry → Prop) :
  (∀ i r, P r → P (caller_step i r)) →
  ∀ sched r, P r → P (race sched r).
Proof.
  intros Hstep sched. induction sched as [|i sched IH]; intros r Hr; [done|].
  cbn. apply IH, Hstep, Hr.
Qed.



(** X12. Construction calls once an instance is registered.  With the
    instance [a] in the registry, any number of threads may call
    [Logger()] at once: whatever the interleaving, nothing is built, the
    registry keeps [a], and every call that has returned gave [a]. *)
Theorem later_calls_share_the_instance (a b n : nat) (sched : list nat) :
  let r := race sched (Registry (Some a) b (replicate n AtTest)) in
  registered r = Some a
  ∧ built r = b
  ∧ length (callers r) = n
  ∧ ∀ i c, callers r !! i = Some c → c = AtTest ∨ c = AtReturn ∨ c = Got a.
Proof.
  intros r. subst r.
  apply (race_invariant (λ r, registered r = Some a ∧ built r = b
                              ∧ length (callers r) = n
                              ∧ ∀ i c, callers r !! i = Some c →
                                       c = AtTest ∨ c = AtReturn ∨ c = Got a)).
  - clear sched. intros i r (Hreg & Hb & Hlen & Hcs). unfold caller_step.
    destruct (callers r !! i) as [c|] eqn:Hi; [|done].
    destruct (Hcs i c Hi) as [->| [->| ->]]; [| |done]; rewrite Hreg;
      cbn [callers built registered]; rewrite length_insert;
      (split_and!; [done..|]);
      intros j c Hj; (destruct (decide (j = i)) as [->|Hne];
        [rewrite list_lookup_insert_eq in Hj by (by eapply lookup_lt_Some);
         injection Hj as <-; auto
        |rewrite list_lookup_insert_ne in Hj by done; by eapply Hcs]).
  - cbn [callers built registered]. rewrite length_replicate. split_and!; [done..|].
    intros i c [-> _]%lookup_replicate. auto.
Qed.

(** ** One instance for each class *)





(** ** The lines of the log of a batch *)







